(** * dask.utils: line-aligned block extraction and seeded categorical sampling

    A shallow embedding of [textblock] and [pseudorandom] from
    [dask/utils.py], with the file objects and the numpy calls they rely on
    written out as explicit state passing. *)

From Stdlib Require Import ZArith QArith Qabs Strings.Byte Strings.Ascii.
From stdpp Require Import base option list strings gmap pretty.

Local Open Scope Z_scope.

(** ** Python exceptions and results *)

Inductive exn : Set :=
| IOError          (* failed seek / open *)
| ValueError       (* operation on a closed file, bad numpy argument *)
| AssertionError.  (* a failed [assert] *)

Inductive result (A : Type) : Type :=
| Ok (a : A)
| Raise (e : exn).
Arguments Ok {A} a.
Arguments Raise {A} e.

Definition is_ok {A} (r : result A) : bool :=
  match r with Ok _ => true | Raise _ => false end.

Abbreviation bytes := (list byte).

Definition newline : byte := x0a.

Definition is_newline (b : byte) : bool := Byte.eqb b newline.

(** ** File objects

    A binary file object: its bytes, the current offset and whether
    [close] was called.  The operations follow the built-in file type:
    seeking before byte 0 fails, seeking past the end is allowed and reads
    from there return nothing. *)

Module Stream.

Record handle : Type := Handle {
  content : bytes;
  pos : Z;
  closed : bool
}.

Definition set_pos (f : handle) (p : Z) : handle :=
  {| content := content f; pos := p; closed := closed f |}.

Definition io (A : Type) : Type := handle -> result A * handle.

Definition ret {A} (a : A) : io A := fun f => (Ok a, f).

Definition bind {A B} (m : io A) (k : A -> io B) : io B :=
  fun f => match m f with
           | (Ok a, f') => k a f'
           | (Raise e, f') => (Raise e, f')
           end.

#[global] Instance io_ret : MRet io := @ret.
#[global] Instance io_bind : MBind io := fun A B k m => bind m k.

(** Every operation on a closed file raises [ValueError]. *)
Definition when_open {A} (m : io A) : io A :=
  fun f => if closed f then (Raise ValueError, f) else m f.

(** [file.seek(offset)] *)
Definition seek (offset : Z) : io unit :=
  when_open (fun f =>
    if offset <? 0 then (Raise IOError, f) else (Ok tt, set_pos f offset)).

(** [file.tell()] *)
Definition tell : io Z :=
  when_open (fun f => (Ok (pos f), f)).

(** The bytes of a line: up to and including the first newline, or
    everything when there is none. *)
Fixpoint take_line (l : bytes) : bytes :=
  match l with
  | [] => []
  | b :: l' => if is_newline b then [b] else b :: take_line l'
  end.

Definition remaining (f : handle) : bytes :=
  drop (Z.to_nat (pos f)) (content f).

Definition advance (f : handle) (data : bytes) : handle :=
  set_pos f (pos f + Z.of_nat (length data)).

(** [file.readline()] *)
Definition readline : io bytes :=
  when_open (fun f =>
    let line := take_line (remaining f) in (Ok line, advance f line)).

(** [file.read(size)]; a negative size (the default, -1) reads to the end. *)
Definition read (size : Z) : io bytes :=
  when_open (fun f =>
    let data := if size <? 0 then remaining f
                else take (Z.to_nat size) (remaining f) in
    (Ok data, advance f data)).

(** [file.close()] *)
Definition close (f : handle) : handle :=
  {| content := content f; pos := pos f; closed := true |}.

(** A freshly opened file on the given bytes. *)
Definition fresh (data : bytes) : handle :=
  {| content := data; pos := 0; closed := false |}.

End Stream.

Import Stream.

(** ** The file system and the codec registry *)

(** What the program can see of its environment: the files by path, and
    the decompression that [gzip.open] performs on a file's bytes. *)
Record world : Type := World {
  files : gmap string bytes;
  gunzip : bytes -> option bytes
}.

Definition opener : Type := world -> string -> result handle.

(** The built-in [open(path, 'rb')]. *)
Definition open : opener := fun w path =>
  match files w !! path with
  | Some data => Ok (fresh data)
  | None => Raise IOError
  end.

(** [gzip.open(path, 'rb')]: a handle on the decompressed bytes. *)
Definition gzip_open : opener := fun w path =>
  match files w !! path with
  | Some data =>
      match gunzip w data with
      | Some plain => Ok (fresh plain)
      | None => Raise IOError
      end
  | None => Raise IOError
  end.

(** [opens = {'gzip': gzip.open}] *)
Definition opens : gmap string opener := {[ "gzip"%string := gzip_open ]}.

(** [opens.get(compression, open)] *)
Definition opens_get (compression : option string) : opener :=
  match compression with
  | Some name => default open (opens !! name)
  | None => open
  end.

(** ** textblock *)

(** The first argument of [textblock]: a path or a file object. *)
Inductive source : Type :=
| Path (name : string)
| File (f : handle).

(** The body of [textblock] once [file] is a file object. *)
Definition textblock_file (start : Z) (stop : option Z) : io bytes :=
  start ← (if bool_decide (start <> 0)
           then seek (start - 1);; line ← readline; tell
           else mret start);
  match stop with
  | None => seek start;; read (-1)
  | Some stop =>
      let stop := stop - 1 in
      seek stop;;
      line ← readline;
      stop ← tell;
      seek start;;
      read (stop - start)
  end.

(** [textblock(file, start, stop, compression)].  It returns the result
    together with the caller's argument as the call leaves it. *)
Definition textblock (w : world) (file : source) (start : Z) (stop : option Z)
    (compression : option string) : result bytes * source :=
  match file with
  | Path name =>
      let myopen := opens_get compression in
      match myopen w name with
      | Ok f =>
          let '(result, f) := textblock_file start stop f in
          let f := close f in
          (result, file)
      | Raise e => (Raise e, file)
      end
  | File f =>
      let '(result, f) := textblock_file start stop f in (result, File f)
  end.

(** The bytes of a text literal. *)
Definition lit (s : string) : bytes := String.list_byte_of_string s.

(** The stream of the docstring: [123\n456\n789\nabc]. *)
Definition myfile : bytes :=
  lit "123" ++ [newline] ++ lit "456" ++ [newline] ++ lit "789" ++ [newline] ++ lit "abc".

(** ** numpy

    The numpy calls of [pseudorandom].  float64 values are modelled by
    exact rationals; an [int8] array is a list of integers in
    -128..127. *)

Module Numpy.

Local Open Scope Q_scope.

Definition Qltb (x y : Q) : bool := negb (Qle_bool y x).

(** [np.cumsum(l)]: the running sums, the first one being [l[0]]. *)
Fixpoint cumsum_from (acc : Q) (l : list Q) : list Q :=
  match l with
  | [] => []
  | v :: l' => (acc + v) :: cumsum_from (acc + v) l'
  end.

Definition cumsum (l : list Q) : list Q :=
  match l with
  | [] => []
  | v :: l' => v :: cumsum_from v l'
  end.

(** The default tolerances of [np.allclose]. *)
Definition rtol : Q := 1 # 100000.
Definition atol : Q := 1 # 100000000.

(** [np.allclose(a, b)] on scalars: [|a - b| <= atol + rtol * |b|]. *)
Definition allclose (a b : Q) : bool :=
  Qle_bool (Qabs (a - b)) (atol + rtol * Qabs b).

(** A value stored into an [int8] cell wraps around modulo 256. *)
Definition int8 (z : Z) : Z := ((z + 128) mod 256 - 128)%Z.

(** A seedable source of uniform draws: [RandomState(key)] and one draw
    of [random_sample]. *)
Record RandomSource : Type := {
  rng : Type;
  rng_seed : Z -> result rng;
  rng_double : rng -> Q * rng
}.

Fixpoint draws (R : RandomSource) (n : nat) (st : rng R) : list Q :=
  match n with
  | O => []
  | S n' => let '(v, st') := rng_double R st in v :: draws R n' st'
  end.

(** [np.random.RandomState(key).random_sample(n)] *)
Definition random_sample (R : RandomSource) (key : Z) (n : Z) : result (list Q) :=
  match rng_seed R key with
  | Ok st => if (n <? 0)%Z then Raise ValueError else Ok (draws R (Z.to_nat n) st)
  | Raise e => Raise e
  end.

(** The state of the numpy runtime a call runs in: the module-level
    generator behind [np.random.random_sample] and friends, and the bytes
    that freshly allocated array memory happens to hold. *)
Record runtime (R : RandomSource) : Type := {
  global_state : rng R;
  fresh_memory : nat -> Z
}.
Arguments global_state {R} _.
Arguments fresh_memory {R} _ _.

(** [np.empty(n, dtype='i1')]: [n] cells with whatever the memory holds. *)
Definition empty {R} (np : runtime R) (n : nat) : list Z :=
  map (fun j => int8 (fresh_memory np j)) (seq 0 n).

(** [(x >= low) & (x < high)] *)
Definition mask (x : list Q) (low high : Q) : list bool :=
  map (fun v => Qle_bool low v && Qltb v high) x.

(** [out[m] = i] on an [int8] array *)
Definition assign (out : list Z) (m : list bool) (i : Z) : list Z :=
  zip_with (fun (hit : bool) o => if hit then int8 i else o) m out.

(** [enumerate(l)] *)
Definition enumerate {A} (l : list A) : list (nat * A) :=
  zip (seq 0 (length l)) l.

End Numpy.

Import Numpy.

(** ** pseudorandom *)

Section Pseudorandom.

Context (R : RandomSource).

(** [zip(cp[:-1], cp[1:])] *)
Definition buckets (cp : list Q) : list (Q * Q) := zip (removelast cp) (tail cp).

(** The loop of [pseudorandom]: each bucket in turn overwrites the cells
    whose draw it contains. *)
Definition fill (x : list Q) (cp : list Q) (out : list Z) : list Z :=
  fold_left (fun out '(i, (low, high)) => assign out (mask x low high) (Z.of_nat i))
            (enumerate (buckets cp)) out.

Definition pseudorandom (np : runtime R) (n : Z) (p : list Q) (key : Z)
    : result (list Z) :=
  let cp := cumsum (0%Q :: p) in
  if negb (allclose 1 (List.last cp 0%Q)) then Raise AssertionError else
  if negb (Z.of_nat (length p) <? 256)%Z then Raise AssertionError else
  match random_sample R key n with
  | Raise e => Raise e
  | Ok x =>
      let out := empty np (Z.to_nat n) in
      Ok (fill x cp out)
  end.

End Pseudorandom.

(** ** The generator behind RandomState

    numpy's [RandomState] is the Mersenne Twister MT19937 of its randomkit:
    [rk_seed], [rk_random] and [rk_double].  The 624-word key is kept as a
    sliding window: each step drops the oldest word and appends the next
    one of the recurrence. *)

Module MT19937.

Definition u32 (z : Z) : Z := Z.land z 0xffffffff.

Fixpoint init_key (count : nat) (pos : Z) (seed : Z) : list Z :=
  match count with
  | O => []
  | S c =>
      seed :: init_key c (pos + 1)
                (u32 (1812433253 * Z.lxor seed (Z.shiftr seed 30) + pos + 1))
  end.

Definition rk_seed (seed : Z) : list Z := init_key 624 0 (u32 seed).

Definition next_word (key : list Z) : Z * list Z :=
  match key with
  | k0 :: (k1 :: _) as rest =>
      let y := Z.lor (Z.land k0 0x80000000) (Z.land k1 0x7fffffff) in
      let v := Z.lxor (Z.lxor (nth 397 key 0) (Z.shiftr y 1))
                      (if Z.odd y then 0x9908b0df else 0) in
      (v, rest ++ [v])
  | _ => (0, key)
  end.

Definition temper (y : Z) : Z :=
  let y := Z.lxor y (Z.shiftr y 11) in
  let y := Z.lxor y (Z.land (Z.shiftl y 7) 0x9d2c5680) in
  let y := Z.lxor y (Z.land (Z.shiftl y 15) 0xefc60000) in
  Z.lxor y (Z.shiftr y 18).

Definition rk_random (key : list Z) : Z * list Z :=
  let '(v, key') := next_word key in (temper v, key').

Definition rk_double (key : list Z) : Q * list Z :=
  let '(a, key1) := rk_random key in
  let '(c, key2) := rk_random key1 in
  (Qmake (Z.shiftr a 5 * 67108864 + Z.shiftr c 6) 9007199254740992, key2).


(** [RandomState(seed)] accepts the seeds 0 .. 2^32 - 1. *)
Definition seed (key : Z) : result (list Z) :=
  if (key <? 0) || (0xffffffff <? key) then Raise ValueError
  else Ok (rk_seed key).

Definition source : RandomSource :=
  {| rng := list Z; rng_seed := seed; rng_double := rk_double |}.

(** A runtime whose global generator was seeded with 0 and whose fresh
    memory holds the given byte everywhere. *)
Definition runtime_with (garbage : Z) : runtime source :=
  {| global_state := rk_seed 0 : rng source; fresh_memory := fun _ => garbage |}.

End MT19937.

(** ** Vocabulary of the statements *)

(** The offset [tell] reports after [seek(p)] and [readline()]. *)
Definition after_line (s : bytes) (p : Z) : Z :=
  p + Z.of_nat (length (take_line (drop (Z.to_nat p) s))).

(** The adjusted start: where the block begins. *)
Definition adjusted_start (s : bytes) (start : Z) : Z :=
  if bool_decide (start <> 0) then after_line s (start - 1) else start.

(** The bytes of [s] at the offsets [a <= i < b]. *)
Definition slice (s : bytes) (a b : Z) : bytes :=
  take (Z.to_nat (b - a)) (drop (Z.to_nat a) s).

(** Offset [i] is where a line starts: byte 0, or just after a newline. *)
Definition line_start (s : bytes) (i : Z) : Prop :=
  i = 0 \/ (0 < i /\ s !! Z.to_nat (i - 1) = Some newline).

(** Offset [i] is where a line stops: just after a newline, or the end of
    the stream. *)
Definition line_stop (s : bytes) (i : Z) : Prop :=
  i = Z.of_nat (length s) \/ (0 < i /\ s !! Z.to_nat (i - 1) = Some newline).

(** Offset [i] cuts a line in two. *)
Definition mid_line (s : bytes) (i : Z) : Prop :=
  0 < i < Z.of_nat (length s) /\ s !! Z.to_nat (i - 1) <> Some newline.

(** A request as the block extractor expects it. *)
Definition request_ok (start : Z) (stop : option Z) : Prop :=
  0 <= start /\ forall t, stop = Some t -> start <= t.

(** A file operation that leaves content and open/closed state alone: all
    it may change is the position. *)
Definition moves_only {A} (m : io A) : Prop :=
  forall f, exists q, snd (m f) = set_pos f q.

(** A file operation whose outcome does not depend on the position it
    starts from: same result, and the same final handle when it succeeds. *)
Definition pos_blind {A} (m : io A) : Prop :=
  forall f p,
    fst (m (set_pos f p)) = fst (m f) /\
    (is_ok (fst (m f)) = true -> snd (m (set_pos f p)) = snd (m f)).

(** A world with the docstring's file under the name [myfile.txt]. *)
Definition myworld : world :=
  {| files := {[ "myfile.txt"%string := myfile ]}; gunzip := fun _ => None |}.

(** Whether a draw lies in the half-open bucket [[low, high)]. *)
Definition in_bucket (v : Q) (bucket : Q * Q) : bool :=
  Qle_bool (fst bucket) v && Qltb v (snd bucket).

(** The first-matching-bucket rule: the index of the first bucket that
    contains the draw. *)
Fixpoint first_bucket (v : Q) (bs : list (Q * Q)) : option nat :=
  match bs with
  | [] => None
  | bucket :: bs' =>
      if in_bucket v bucket then Some O else S <$> first_bucket v bs'
  end.


(** The value a cell ends with, iteration by iteration. *)
Definition cell (v : Q) (ibs : list (nat * (Q * Q))) (o : Z) : Z :=
  fold_left (fun o '(i, bucket) => if in_bucket v bucket then int8 (Z.of_nat i) else o)
            ibs o.

(** 200 empty categories followed by one that takes everything. *)
Definition p201 : list Q := replicate 200 0%Q ++ [1%Q].

(** ** Reading a file block by block *)

(** Consecutive calls of [textblock] on one file: the block from [start]
    to the first cut, from each cut to the next, and from the last cut to
    the end of the stream.  Each call receives the file as the call
    before left it. *)
Fixpoint read_blocks (w : world) (file : source) (start : Z) (cuts : list Z)
    : list (result bytes) :=
  match cuts with
  | [] => [fst (textblock w file start None None)]
  | cut :: cuts' =>
      let '(block, file') := textblock w file start (Some cut) None in
      block :: read_blocks w file' cut cuts'
  end.

(** Cut points in ascending order, none before [start]. *)
Fixpoint ascending (start : Z) (cuts : list Z) : Prop :=
  match cuts with
  | [] => True
  | cut :: cuts' => start <= cut /\ ascending cut cuts'
  end.

(** The index of the last bucket that contains the draw. *)
Fixpoint last_bucket (v : Q) (bs : list (Q * Q)) : option nat :=
  match bs with
  | [] => None
  | bucket :: bs' =>
      match last_bucket v bs' with
      | Some i => Some (S i)
      | None => if in_bucket v bucket then Some O else None
      end
  end.

(** ** Nested sequences: deepmap and concrete *)

Module Nested.

(** The values [deepmap] and [concrete] tell apart: a scalar, a list, a
    tuple, or an iterator that will yield the given items. *)
#[warnings="-register-all"]
Inductive pyval : Type :=
| Atom (z : Z)
| PList (items : list pyval)
| PTuple (items : list pyval)
| PIter (items : list pyval).

Inductive pyexn : Set :=
| TypeError                (* zip over something that is not iterable *)
| IndexError               (* seqs[0] of an empty argument tuple *)
| Raised (e : exn).        (* raised by the mapped function *)

Inductive outcome (A : Type) : Type :=
| Done (a : A)
| Failed (e : pyexn).
Arguments Done {A} a.
Arguments Failed {A} e.

(** The items an argument of [zip] yields; a scalar is not iterable. *)
Definition iterate (v : pyval) : option (list pyval) :=
  match v with
  | Atom _ => None
  | PList items | PTuple items | PIter items => Some items
  end.

Fixpoint iterate_all (vs : list pyval) : option (list (list pyval)) :=
  match vs with
  | [] => Some []
  | v :: vs' =>
      match iterate v, iterate_all vs' with
      | Some items, Some cols => Some (items :: cols)
      | _, _ => None
      end
  end.

(** The next item of every column, and what is left of the columns;
    [None] as soon as one column is exhausted. *)
Fixpoint next_row (cols : list (list pyval))
    : option (list pyval * list (list pyval)) :=
  match cols with
  | [] => Some ([], [])
  | [] :: _ => None
  | (item :: col) :: cols' =>
      match next_row cols' with
      | Some (row, rest) => Some (item :: row, col :: rest)
      | None => None
      end
  end.

(** The list comprehension over the rows of the zip of the sequences: one recursive
    call per row, stopping at the first that fails. *)
Fixpoint map_rows (call : pyval -> list pyval -> outcome pyval)
    (items : list pyval) (cols : list (list pyval)) : outcome (list pyval) :=
  match items with
  | [] => Done []
  | item :: items' =>
      match next_row cols with
      | None => Done []
      | Some (row, rest) =>
          match call item row with
          | Failed e => Failed e
          | Done r =>
              match map_rows call items' rest with
              | Failed e => Failed e
              | Done rs => Done (r :: rs)
              end
          end
      end
  end.

Definition zipped (call : pyval -> list pyval -> outcome pyval)
    (items : list pyval) (others : list pyval) : outcome pyval :=
  match iterate_all others with
  | None => Failed TypeError
  | Some cols =>
      match map_rows call items cols with
      | Failed e => Failed e
      | Done rs => Done (PList rs)
      end
  end.

Section Deepmap.

Context (func : list pyval -> outcome pyval).

(** [deepmap(func, first, *others)]: the recursion is on the first of
    the sequences, the one whose type is tested. *)
Fixpoint deepmap (first : pyval) (others : list pyval) {struct first}
    : outcome pyval :=
  match first with
  | PList items => zipped deepmap items others
  | PIter items => zipped deepmap items others
  | Atom _ | PTuple _ => func (first :: others)
  end.

(** [deepmap(func, *seqs)] *)
Definition deepmap_call (seqs : list pyval) : outcome pyval :=
  match seqs with
  | [] => Failed IndexError
  | first :: others => deepmap first others
  end.

End Deepmap.

(** [concrete(seq)]: an iterator is turned into the list of its items,
    then the items of a tuple or list are made concrete in turn. *)
Fixpoint concrete (seq : pyval) : pyval :=
  match seq with
  | PIter items => PList (map concrete items)
  | PTuple items => PList (map concrete items)
  | PList items => PList (map concrete items)
  | Atom z => Atom z
  end.

(** A function of scalars, as [deepmap] is given one: applied to
    anything but scalars it fails with [TypeError]. *)
Fixpoint scalars (args : list pyval) : option (list Z) :=
  match args with
  | [] => Some []
  | Atom z :: args' => cons z <$> scalars args'
  | _ :: _ => None
  end.

Definition on_scalars (g : list Z -> Z) (args : list pyval) : outcome pyval :=
  match scalars args with
  | Some zs => Done (Atom (g zs))
  | None => Failed TypeError
  end.

(** Values made of scalars and lists only. *)
Fixpoint only_lists (v : pyval) : bool :=
  match v with
  | Atom _ => true
  | PList items => forallb only_lists items
  | PTuple _ | PIter _ => false
  end.

(** The scalars of a value, left to right. *)
Fixpoint leaves (v : pyval) : list Z :=
  match v with
  | Atom z => [z]
  | PList items | PTuple items | PIter items => flat_map leaves items
  end.

(** The map over the scalars of a value that keeps its nesting. *)
Fixpoint map_leaves (g : Z -> Z) (v : pyval) : pyval :=
  match v with
  | Atom z => Atom (g z)
  | PList items => PList (map (map_leaves g) items)
  | PTuple items => PTuple (map (map_leaves g) items)
  | PIter items => PIter (map (map_leaves g) items)
  end.



(** Induction over nested values, with the hypothesis for every item. *)
Fixpoint pyval_nested_ind (P : pyval -> Prop)
    (HAtom : forall z, P (Atom z))
    (HList : forall items, Forall P items -> P (PList items))
    (HTuple : forall items, Forall P items -> P (PTuple items))
    (HIter : forall items, Forall P items -> P (PIter items))
    (v : pyval) {struct v} : P v :=
  let all :=
    fix all (items : list pyval) : Forall P items :=
      match items with
      | [] => List.Forall_nil P
      | item :: items' =>
          @List.Forall_cons _ P item items'
            (pyval_nested_ind P HAtom HList HTuple HIter item) (all items')
      end in
  match v with
  | Atom z => HAtom z
  | PList items => HList items (all items)
  | PTuple items => HTuple items (all items)
  | PIter items => HIter items (all items)
  end.

End Nested.

(** ** Temporary files: tmpfile, filetext and filetexts

    The three context managers, each as the function that runs a body
    inside it.  A body receives what the manager yields and the world, and
    returns its result, or the exception it raises, with the world as it
    leaves it.  The world holds regular files only, so no path is ever a
    directory. *)

Module TempFiles.

Definition set_files (w : world) (fs : gmap string bytes) : world :=
  {| files := fs; gunzip := gunzip w |}.

(** [os.path.exists(path)] *)
Definition path_exists (w : world) (path : string) : bool :=
  bool_decide (is_Some (files w !! path)).

(** [os.path.isdir(path)] *)
Definition isdir (w : world) (path : string) : bool := false.

(** [os.remove(path)], for a path that exists *)
Definition remove (w : world) (path : string) : world :=
  set_files w (delete path (files w)).

(** [shutil.rmtree(path)] *)
Definition rmtree (w : world) (path : string) : world :=
  set_files w (delete path (files w)).

(** [s.lstrip(c)] for a single character [c] *)
Fixpoint lstrip (c : Ascii.ascii) (s : string) : string :=
  match s with
  | EmptyString => EmptyString
  | String a s' => if Ascii.eqb a c then lstrip c s' else s
  end.

(** What [open(filename, mode)], [f.write(text)] and [f.close()] do to
    the world, for the [open] a caller passes in. *)
Definition writer : Type := world -> string -> bytes -> result world.

(** The built-in [open] in a write mode: the file now holds the text. *)
Definition open_write : writer := fun w filename text =>
  Ok (set_files w (<[filename := text]> (files w))).

Section Managers.

(** [tempfile.mkstemp(suffix)]: the name of the file it creates. *)
Context (mkstemp : world -> string -> string).

Context {A : Type}.

(** [with tmpfile(extension) as filename: body] *)
Definition tmpfile (extension : string) (body : string -> world -> result A * world)
    (w : world) : result A * world :=
  let extension := String "."%char (lstrip "."%char extension) in
  let filename := mkstemp w extension in
  let w := set_files w (<[filename := []]> (files w)) in
  let w := remove w filename in
  let '(r, w) := body filename w in
  let w := if path_exists w filename
           then if isdir w filename then rmtree w filename
                else remove w filename
           else w in
  (r, w).

(** [with filetext(text, extension, open) as filename: body] *)
Definition filetext (text : bytes) (extension : string) (open : writer)
    (body : string -> world -> result A * world) : world -> result A * world :=
  tmpfile extension (fun filename w =>
    match open w filename text with
    | Ok w => body filename w
    | Raise e => (Raise e, w)
    end).

(** The first loop of [filetexts]: write every file of the dict. *)
Fixpoint write_all (open : writer) (items : list (string * bytes)) (w : world)
    : result unit * world :=
  match items with
  | [] => (Ok tt, w)
  | (filename, text) :: items' =>
      match open w filename text with
      | Ok w => write_all open items' w
      | Raise e => (Raise e, w)
      end
  end.

(** The last loop of [filetexts]: remove the files that exist. *)
Fixpoint remove_all (names : list string) (w : world) : world :=
  match names with
  | [] => w
  | filename :: names' =>
      remove_all names' (if path_exists w filename then remove w filename else w)
  end.

(** [with filetexts(d, open) as names: body].  An exception of the body
    leaves the generator at its [yield], before the loop that removes the
    files. *)
Definition filetexts (d : gmap string bytes) (open : writer)
    (body : list string -> world -> result A * world) (w : world)
    : result A * world :=
  match write_all open (map_to_list d) w with
  | (Raise e, w) => (Raise e, w)
  | (Ok _, w) =>
      match body (map_to_list d).*1 w with
      | (Ok a, w) => (Ok a, remove_all (map_to_list d).*1 w)
      | (Raise e, w) => (Raise e, w)
      end
  end.

End Managers.

(** The body that reads a block of the file it is given and leaves the
    world alone. *)
Definition read_block (start : Z) (stop : option Z) (compression : option string)
    (filename : string) (w : world) : result bytes * world :=
  (fst (textblock w (Path filename) start stop compression), w).






End TempFiles.

(** ** repr_long_list *)

Module Repr.

(** [sep.join(parts)] *)
Fixpoint join (sep : string) (parts : list string) : string :=
  match parts with
  | [] => ""
  | [part] => part
  | part :: parts' => part +:+ sep +:+ join sep parts'
  end.

(** [s[:-1]] *)
Fixpoint drop_last (s : string) : string :=
  match s with
  | EmptyString => EmptyString
  | String a EmptyString => EmptyString
  | String a s' => String a (drop_last s')
  end.

(** [s[1:]] *)
Definition drop_first (s : string) : string :=
  match s with
  | EmptyString => EmptyString
  | String _ s' => s'
  end.

Section ReprLongList.

(** [repr] of an item of the list. *)
Context {A : Type} (repr : A -> string).

(** [repr(seq)] for a list *)
Definition repr_list (seq : list A) : string :=
  "[" +:+ join ", " (map repr seq) +:+ "]".

Definition repr_long_list (seq : list A) : string :=
  if (length seq <? 8)%nat then repr_list seq
  else drop_last (repr_list (take 3 seq)) +:+ ", ..., "
       +:+ drop_first (repr_list (drop (length seq - 2) seq)).

End ReprLongList.

End Repr.

(** * Properties of textblock *)

(** C2: on the stream 123\n456\n789\nabc (15 bytes), textblock(f, 1, 10)
    returns exactly the 8 bytes 456\n789\n. *)
Theorem textblock_docstring_example :
  length myfile = 15%nat /\
  fst (textblock_file 1 (Some 10) (fresh myfile))
    = Ok (lit "456" ++ [newline] ++ lit "789" ++ [newline]) /\
  forall w, fst (textblock w (File (fresh myfile)) 1 (Some 10) None)
    = Ok (lit "456" ++ [newline] ++ lit "789" ++ [newline]).
Proof.
  split; [reflexivity|]. split; [vm_compute; reflexivity|].
  intros w. vm_compute. reflexivity.
Qed.

(** ** File operations on an open handle *)

Section OpenHandle.

Context (f : handle) (Hopen : closed f = false).

Lemma seek_open (o : Z) :
  seek o f = if o <? 0 then (Raise IOError, f) else (Ok tt, set_pos f o).
Proof. unfold seek, when_open. now rewrite Hopen. Qed.

Lemma readline_open :
  readline f = (Ok (take_line (remaining f)), advance f (take_line (remaining f))).
Proof. unfold readline, when_open. now rewrite Hopen. Qed.

Lemma tell_open : tell f = (Ok (pos f), f).
Proof. unfold tell, when_open. now rewrite Hopen. Qed.

Lemma read_open (size : Z) :
  read size f =
  let data := if size <? 0 then remaining f
              else take (Z.to_nat size) (remaining f) in
  (Ok data, advance f data).
Proof. unfold read, when_open. now rewrite Hopen. Qed.

End OpenHandle.

Lemma set_pos_closed f p : closed (set_pos f p) = closed f.
Proof. reflexivity. Qed.

Lemma set_pos_content f p : content (set_pos f p) = content f.
Proof. reflexivity. Qed.

Lemma set_pos_pos f p : pos (set_pos f p) = p.
Proof. reflexivity. Qed.

Lemma set_pos_twice f p q : set_pos (set_pos f p) q = set_pos f q.
Proof. reflexivity. Qed.

(** [seek(p); readline(); tell()] on an open handle. *)
Lemma burn_line (f : handle) (p : Z) :
  closed f = false -> 0 <= p ->
  (seek p;; line ← readline; tell) f
  = (Ok (after_line (content f) p), set_pos f (after_line (content f) p)).
Proof.
  intros Hopen Hp.
  unfold mbind, io_bind, bind.
  rewrite seek_open by done.
  destruct (Z.ltb_spec p 0) as [|_]; [lia|].
  rewrite readline_open by done.
  rewrite tell_open by done.
  reflexivity.
Qed.

Lemma burn_line_negative (f : handle) (p : Z) :
  closed f = false -> p < 0 ->
  (seek p;; line ← readline; tell) f = (Raise IOError, f).
Proof.
  intros Hopen Hp.
  unfold mbind, io_bind, bind.
  rewrite seek_open by done.
  destruct (Z.ltb_spec p 0) as [_|]; [reflexivity|lia].
Qed.

(** ** What textblock computes on an open handle *)

Lemma after_line_ge (s : bytes) (p : Z) : p <= after_line s p.
Proof. unfold after_line. lia. Qed.

Lemma adjusted_start_nonneg (s : bytes) (start : Z) :
  0 <= start -> 0 <= adjusted_start s start.
Proof.
  intros H. unfold adjusted_start. case_bool_decide; [|lia].
  pose proof (after_line_ge s (start - 1)). lia.
Qed.

Lemma textblock_file_to_end (f : handle) (start : Z) :
  closed f = false -> 0 <= start ->
  fst (textblock_file start None f)
  = Ok (drop (Z.to_nat (adjusted_start (content f) start)) (content f)).
Proof.
  intros Hopen Hstart.
  pose proof (adjusted_start_nonneg (content f) start Hstart) as Ha.
  unfold textblock_file, adjusted_start in *.
  unfold mbind at 1, io_bind at 1, bind.
  case_bool_decide as Hz.
  - rewrite burn_line by (done || lia).
    unfold mbind, io_bind, bind.
    rewrite seek_open by done.
    destruct (Z.ltb_spec (after_line (content f) (start - 1)) 0); [lia|].
    rewrite read_open by done. reflexivity.
  - unfold mret, io_ret, ret, mbind, io_bind, bind.
    rewrite seek_open by done.
    destruct (Z.ltb_spec start 0); [lia|].
    rewrite read_open by done. reflexivity.
Qed.

Lemma textblock_file_bounded (f : handle) (start t : Z) :
  closed f = false -> 0 <= start -> 0 < t ->
  fst (textblock_file start (Some t) f)
  = let a := adjusted_start (content f) start in
    let size := after_line (content f) (t - 1) - a in
    Ok (if size <? 0 then drop (Z.to_nat a) (content f)
        else take (Z.to_nat size) (drop (Z.to_nat a) (content f))).
Proof.
  intros Hopen Hstart Ht.
  pose proof (adjusted_start_nonneg (content f) start Hstart) as Ha.
  unfold textblock_file, adjusted_start in *.
  unfold mbind at 1, io_bind at 1, bind.
  case_bool_decide as Hz.
  - rewrite burn_line by (done || lia).
    unfold mbind, io_bind, bind.
    rewrite seek_open by done.
    destruct (Z.ltb_spec (t - 1) 0); [lia|].
    rewrite readline_open, tell_open, seek_open by done.
    destruct (Z.ltb_spec (after_line (content f) (start - 1)) 0); [lia|].
    rewrite read_open by done. reflexivity.
  - unfold mret, io_ret, ret, mbind, io_bind, bind.
    rewrite seek_open by done.
    destruct (Z.ltb_spec (t - 1) 0); [lia|].
    rewrite readline_open, tell_open, seek_open by done.
    destruct (Z.ltb_spec start 0); [lia|].
    rewrite read_open by done. reflexivity.
Qed.

(** A stop of 0 or less sends [seek] before byte 0. *)
Lemma textblock_file_stop_nonpositive (f : handle) (start t : Z) :
  closed f = false -> 0 <= start -> t <= 0 ->
  fst (textblock_file start (Some t) f) = Raise IOError.
Proof.
  intros Hopen Hstart Ht.
  pose proof (adjusted_start_nonneg (content f) start Hstart) as Ha.
  unfold textblock_file, adjusted_start in *.
  unfold mbind at 1, io_bind at 1, bind.
  case_bool_decide as Hz.
  - rewrite burn_line by (done || lia).
    unfold mbind, io_bind, bind.
    rewrite seek_open by done.
    destruct (Z.ltb_spec (t - 1) 0); [reflexivity|lia].
  - unfold mret, io_ret, ret, mbind, io_bind, bind.
    rewrite seek_open by done.
    destruct (Z.ltb_spec (t - 1) 0); [reflexivity|lia].
Qed.

(** ** Lines *)

Lemma is_newline_spec (c : byte) : is_newline c = true <-> c = newline.
Proof.
  unfold is_newline. split.
  - intros H. now apply Byte.byte_dec_bl.
  - intros ->. reflexivity.
Qed.

Lemma take_line_length_le (l : bytes) : (length (take_line l) <= length l)%nat.
Proof.
  induction l as [|c l IH]; simpl; [lia|].
  destruct (is_newline c); simpl; lia.
Qed.

Lemma take_line_nonempty (l : bytes) : l <> [] -> (0 < length (take_line l))%nat.
Proof.
  destruct l as [|c l]; [done|]. intros _. simpl.
  destruct (is_newline c); simpl; lia.
Qed.

(** A line read stops at the end of the data or on a newline. *)
Lemma take_line_end (l : bytes) :
  length (take_line l) = length l \/
  exists n, length (take_line l) = S n /\ l !! n = Some newline.
Proof.
  induction l as [|c l IH]; simpl; [now left|].
  destruct (is_newline c) eqn:Hc.
  - right. exists O. split; [reflexivity|].
    apply is_newline_spec in Hc. now subst.
  - destruct IH as [IH|(n & Hn & Hl)].
    + left. simpl. now rewrite IH.
    + right. exists (S n). simpl. now rewrite Hn.
Qed.

Lemma take_line_step (l : bytes) :
  (length (take_line l) <= S (length (take_line (tail l))))%nat.
Proof.
  destruct l as [|c l]; simpl; [lia|].
  destruct (is_newline c); simpl; lia.
Qed.

Lemma after_line_past_end (s : bytes) (p : Z) :
  Z.of_nat (length s) <= p -> after_line s p = p.
Proof.
  intros H. unfold after_line.
  rewrite drop_ge by lia. simpl. lia.
Qed.

Lemma after_line_le_length (s : bytes) (p : Z) :
  0 <= p <= Z.of_nat (length s) -> after_line s p <= Z.of_nat (length s).
Proof.
  intros H. unfold after_line.
  pose proof (take_line_length_le (drop (Z.to_nat p) s)) as Hle.
  rewrite length_drop in Hle. lia.
Qed.

(** After burning the line of an offset inside the stream, the handle is
    past that offset, and at the end of the stream or just after a
    newline. *)
Lemma after_line_inside (s : bytes) (p : Z) :
  0 <= p < Z.of_nat (length s) ->
  p < after_line s p /\ line_stop s (after_line s p).
Proof.
  intros H. unfold after_line, line_stop.
  set (l := drop (Z.to_nat p) s).
  assert (Hlen : length l = (length s - Z.to_nat p)%nat) by apply length_drop.
  assert (Hne : l <> []) by (intros E; rewrite E in Hlen; simpl in Hlen; lia).
  pose proof (take_line_nonempty l Hne) as Hpos.
  split; [lia|].
  destruct (take_line_end l) as [E|(n & E & Hn)].
  - left. lia.
  - right. split; [lia|].
    unfold l in Hn. rewrite lookup_drop in Hn.
    replace (Z.to_nat (p + Z.of_nat (length (take_line l)) - 1))
      with (Z.to_nat p + n)%nat by lia.
    exact Hn.
Qed.

Lemma after_line_succ (s : bytes) (p : Z) :
  0 <= p -> after_line s p <= after_line s (p + 1).
Proof.
  intros H. unfold after_line.
  pose proof (take_line_step (drop (Z.to_nat p) s)) as Hs.
  replace (tail (drop (Z.to_nat p) s)) with (drop (Z.to_nat (p + 1)) s) in Hs.
  - lia.
  - replace (Z.to_nat (p + 1)) with (S (Z.to_nat p)) by lia.
    generalize (Z.to_nat p) as n. clear.
    intros n. revert s.
    induction n as [|n IH]; intros [|c s]; simpl; try reflexivity.
    apply IH.
Qed.

(** Burning a line is monotone in the offset. *)
Lemma after_line_mono (s : bytes) (p q : Z) :
  0 <= p <= q -> after_line s p <= after_line s q.
Proof.
  intros [Hp Hq].
  replace q with (p + Z.of_nat (Z.to_nat (q - p))) by lia.
  generalize (Z.to_nat (q - p)) as d.
  induction d as [|d IH].
  - replace (p + Z.of_nat 0) with p by lia. lia.
  - pose proof (after_line_succ s (p + Z.of_nat d) ltac:(lia)) as Hs.
    replace (p + Z.of_nat (S d)) with (p + Z.of_nat d + 1) by lia. lia.
Qed.

(** ** Blocks are made of whole lines *)

Lemma slice_clip (s : bytes) (a b : Z) :
  0 <= a <= b ->
  slice s a b
  = slice s (Z.min a (Z.of_nat (length s))) (Z.min b (Z.of_nat (length s))).
Proof.
  intros H. unfold slice.
  destruct (Z.le_gt_cases (Z.of_nat (length s)) a) as [Ha|Ha].
  - rewrite !drop_ge by lia. now rewrite !take_nil.
  - rewrite (Z.min_l a) by lia.
    destruct (Z.le_gt_cases b (Z.of_nat (length s))) as [Hb|Hb].
    + now rewrite (Z.min_l b) by lia.
    + rewrite (Z.min_r b) by lia.
      rewrite !take_ge; [reflexivity| |]; rewrite length_drop; lia.
Qed.

Lemma drop_as_slice (s : bytes) (a : Z) :
  0 <= a ->
  drop (Z.to_nat a) s
  = slice s (Z.min a (Z.of_nat (length s))) (Z.of_nat (length s)).
Proof.
  intros H. unfold slice.
  destruct (Z.le_gt_cases (Z.of_nat (length s)) a) as [Ha|Ha].
  - rewrite !drop_ge by lia. now rewrite take_nil.
  - rewrite Z.min_l by lia.
    rewrite take_ge; [reflexivity|]. rewrite length_drop. lia.
Qed.

Lemma line_start_not_mid (s : bytes) (i : Z) : line_start s i -> ~ mid_line s i.
Proof. intros [->|[_ H]] [Hi Hm]; [lia|contradiction]. Qed.

Lemma line_stop_not_mid (s : bytes) (i : Z) : line_stop s i -> ~ mid_line s i.
Proof. intros [->|[_ H]] [Hi Hm]; [lia|contradiction]. Qed.

(** Where the adjusted start lands: on a line start, or at or past the
    end of the stream. *)
Lemma adjusted_start_boundary (s : bytes) (start : Z) :
  0 <= start ->
  let a := adjusted_start s start in
  (a <= Z.of_nat (length s) /\ line_start s a) \/ Z.of_nat (length s) <= a.
Proof.
  intros H a. subst a. unfold adjusted_start.
  case_bool_decide as Hz.
  - destruct (Z.le_gt_cases (Z.of_nat (length s)) (start - 1)) as [Hout|Hin].
    + right. rewrite after_line_past_end by done. done.
    + destruct (after_line_inside s (start - 1)) as [Hlt [E|[Hpos Hnl]]]; [lia| |].
      * right. lia.
      * left. split; [|right; done].
        apply lookup_lt_Some in Hnl. lia.
  - left. split; [lia|]. left. lia.
Qed.

(** Where the adjusted stop lands, clipped to the stream. *)
Lemma adjusted_stop_boundary (s : bytes) (t : Z) :
  0 < t -> line_stop s (Z.min (after_line s (t - 1)) (Z.of_nat (length s))).
Proof.
  intros H.
  destruct (Z.le_gt_cases (Z.of_nat (length s)) (t - 1)) as [Hout|Hin].
  - rewrite after_line_past_end by done. left. lia.
  - destruct (after_line_inside s (t - 1)) as [Hlt Hstop]; [lia|].
    pose proof (after_line_le_length s (t - 1) ltac:(lia)).
    now rewrite Z.min_l by lia.
Qed.

Lemma adjusted_bounds_ordered (s : bytes) (start t : Z) :
  0 <= start <= t -> 0 < t ->
  adjusted_start s start <= after_line s (t - 1).
Proof.
  intros H Ht. unfold adjusted_start. case_bool_decide as Hz.
  - apply after_line_mono. lia.
  - pose proof (after_line_ge s (t - 1)). lia.
Qed.

(** C1: for every open stream and every request with start >= 0 and stop
    None or >= start, the block textblock returns is the bytes of the
    stream between two offsets a <= b such that a is byte 0 or follows a
    newline (or the block is empty, at end-of-stream), b follows a newline
    or is the end of the stream, and neither offset cuts a line in two.
    Such a block is returned whenever stop is not 0. *)
Theorem textblock_whole_lines (w : world) (f : handle) (start : Z)
    (stop : option Z) (compression : option string) :
  closed f = false ->
  request_ok start stop ->
  (stop <> Some 0 -> is_ok (fst (textblock w (File f) start stop compression)) = true) /\
  forall block,
    fst (textblock w (File f) start stop compression) = Ok block ->
    exists a b,
      0 <= a <= b /\ b <= Z.of_nat (length (content f)) /\
      block = slice (content f) a b /\
      (line_start (content f) a \/ (a = Z.of_nat (length (content f)) /\ block = [])) /\
      line_stop (content f) b /\
      ~ mid_line (content f) a /\ ~ mid_line (content f) b.
Proof.
  intros Hopen [Hstart Hstop].
  assert (Hfst : fst (textblock w (File f) start stop compression)
                 = fst (textblock_file start stop f)).
  { unfold textblock. now destruct (textblock_file start stop f). }
  rewrite Hfst. clear Hfst.
  set (s := content f).
  set (L := Z.of_nat (length s)).
  pose proof (adjusted_start_nonneg s start Hstart) as Ha0.
  pose proof (adjusted_start_boundary s start Hstart) as Ha. simpl in Ha.
  set (a0 := adjusted_start s start) in *.
  assert (Hablock : forall b0, a0 <= b0 ->
            line_start s (Z.min a0 L) \/
            (Z.min a0 L = L /\ slice s (Z.min a0 L) (Z.min b0 L) = [])).
  { intros b0 Hb0. destruct Ha as [[Hle Hls]|Hge].
    - left. now rewrite Z.min_l by done.
    - right. split; [unfold L in *; lia|].
      unfold slice. rewrite drop_ge by (unfold L in *; lia). apply take_nil. }
  assert (Hamid : ~ mid_line s (Z.min a0 L)).
  { destruct Ha as [[Hle Hls]|Hge].
    - rewrite Z.min_l by done. now apply line_start_not_mid.
    - intros [Hi _]. unfold L in *. lia. }
  destruct stop as [t|].
  - specialize (Hstop t eq_refl).
    destruct (Z.le_gt_cases t 0) as [Hz|Hpos].
    + rewrite textblock_file_stop_nonpositive by done.
      split; [|discriminate].
      intros Hne. exfalso. apply Hne. f_equal. lia.
    + rewrite textblock_file_bounded by done. fold s a0. simpl.
      split; [done|].
      pose proof (adjusted_bounds_ordered s start t ltac:(lia) Hpos) as Hord.
      fold a0 in Hord.
      destruct (Z.ltb_spec (after_line s (t - 1) - a0) 0) as [|_]; [lia|].
      intros block [= <-].
      pose proof (adjusted_stop_boundary s t Hpos) as Hb. fold L in Hb.
      exists (Z.min a0 L), (Z.min (after_line s (t - 1)) L).
      fold (slice s a0 (after_line s (t - 1))).
      rewrite (slice_clip s a0 (after_line s (t - 1))) by lia. fold L.
      repeat split; try (unfold L in *; lia); try done.
      * now apply Hablock.
      * now apply line_stop_not_mid.
  - rewrite textblock_file_to_end by done. fold s a0.
    split; [done|].
    intros block [= <-].
    exists (Z.min a0 L), L.
    rewrite (drop_as_slice s a0) by lia. fold L.
    repeat split; try (unfold L in *; lia); try done.
    + specialize (Hablock (Z.max a0 L) ltac:(lia)).
      now rewrite (Z.min_r (Z.max a0 L)) in Hablock by lia.
    + now left.
    + intros [Hi _]. lia.
Qed.

Lemma textblock_whole_lines_witness :
  exists a b0,
    0 <= a <= b0 /\ b0 <= Z.of_nat (length myfile) /\
    lit "456" ++ [newline] ++ lit "789" ++ [newline] = slice myfile a b0 /\
    ~ mid_line myfile a /\ ~ mid_line myfile b0.
Proof.
  destruct (textblock_whole_lines myworld (fresh myfile) 1 (Some 10) None) as [_ H].
  - reflexivity.
  - split; [lia|]. intros t [= <-]. lia.
  - destruct (H (lit "456" ++ [newline] ++ lit "789" ++ [newline])) as (a & b0 & H1 & H2 & H3 & _ & _ & H4 & H5).
    + vm_compute. reflexivity.
    + exists a, b0. repeat split; try assumption; lia.
Defined.

(** ** The handle position does not matter *)

Lemma moves_only_ret {A} (a : A) : moves_only (mret a).
Proof. intros f. exists (pos f). now destruct f. Qed.

Lemma moves_only_when_open {A} (m : io A) :
  (forall f, exists q, snd (m f) = set_pos f q) -> moves_only (when_open m).
Proof.
  intros H f. unfold when_open. destruct (closed f); [|apply H].
  exists (pos f). now destruct f.
Qed.

Lemma moves_only_seek (o : Z) : moves_only (seek o).
Proof.
  apply moves_only_when_open. intros f. destruct (o <? 0).
  - exists (pos f). now destruct f.
  - now exists o.
Qed.

Lemma moves_only_readline : moves_only readline.
Proof. apply moves_only_when_open. intros f. simpl. eexists. reflexivity. Qed.

Lemma moves_only_tell : moves_only tell.
Proof. apply moves_only_when_open. intros f. exists (pos f). now destruct f. Qed.

Lemma moves_only_read (size : Z) : moves_only (read size).
Proof. apply moves_only_when_open. intros f. simpl. eexists. reflexivity. Qed.

Lemma moves_only_bind {A B} (m : io A) (k : A -> io B) :
  moves_only m -> (forall a, moves_only (k a)) -> moves_only (m ≫= k).
Proof.
  intros Hm Hk f. unfold mbind, io_bind, bind.
  destruct (Hm f) as [q Hq]. destruct (m f) as [[a|e] f']; simpl in Hq; subst f'.
  - destruct (Hk a (set_pos f q)) as [q' Hq']. exists q'. now rewrite Hq'.
  - now exists q.
Qed.

Create HintDb io.

#[local] Hint Resolve moves_only_ret moves_only_seek moves_only_readline
  moves_only_tell moves_only_read : io.

(** textblock only ever moves the handle: content and open/closed state
    stay as they were. *)
Lemma textblock_file_moves_only (start : Z) (stop : option Z) :
  moves_only (textblock_file start stop).
Proof.
  unfold textblock_file.
  apply moves_only_bind.
  - case_bool_decide; auto with io.
    repeat (apply moves_only_bind; [auto with io|intros ?]); auto with io.
  - intros a. destruct stop;
      repeat (apply moves_only_bind; [auto with io|intros ?]); auto with io.
Qed.

Lemma pos_blind_seek (o : Z) : pos_blind (seek o).
Proof.
  intros f p. unfold seek, when_open. simpl.
  destruct (closed f); [done|]. now destruct (o <? 0).
Qed.

Lemma pos_blind_bind {A B} (m : io A) (k : A -> io B) :
  pos_blind m -> pos_blind (m ≫= k).
Proof.
  intros Hm f p. unfold mbind, io_bind, bind.
  destruct (Hm f p) as [Hfst Hsnd].
  destruct (m f) as [[a|e] f1], (m (set_pos f p)) as [[a'|e'] f2];
    simpl in *; try discriminate.
  - injection Hfst as ->. rewrite (Hsnd eq_refl). done.
  - injection Hfst as ->. done.
Qed.

(** Every path through textblock seeks before it reads, so the position
    the handle comes with has no influence on the result. *)
Lemma textblock_file_pos_blind (start : Z) (stop : option Z) :
  pos_blind (textblock_file start stop).
Proof.
  unfold textblock_file. case_bool_decide.
  - do 2 apply pos_blind_bind. apply pos_blind_seek.
  - change (pos_blind (match stop with
                       | Some t => seek (t - 1);; line ← readline; stop ← tell;
                                   seek start;; read (stop - start)
                       | None => seek start;; read (-1)
                       end)).
    destruct stop; apply pos_blind_bind, pos_blind_seek.
Qed.

(** C9: calling textblock twice in succession with identical arguments on
    the same unmodified stream, the second call starting from the handle
    as the first call left it, gives the same result both times. *)
Theorem textblock_idempotent (w : world) (file : source) (start : Z)
    (stop : option Z) (compression : option string) :
  let first_call := textblock w file start stop compression in
  fst (textblock w (snd first_call) start stop compression) = fst first_call.
Proof.
  destruct file as [name|f]; simpl.
  - destruct (opens_get compression w name) as [g|e] eqn:Eo;
      [destruct (textblock_file start stop g) as [r g'] eqn:E|];
      simpl; rewrite ?Eo, ?E; reflexivity.
  - destruct (textblock_file_moves_only start stop f) as [q Hq].
    destruct (textblock_file_pos_blind start stop f q) as [Hirr _].
    destruct (textblock_file start stop f) as [r f'] eqn:E. simpl in *.
    subst f'.
    destruct (textblock_file start stop (set_pos f q)) as [r' f''] eqn:E'.
    simpl in *. now subst.
Qed.

(** ** Requests with stop = 0 *)

(** C7: on any freshly opened stream, textblock(f, 0, 0) does not return
    the empty byte string: the stop offset is decremented to -1 and the
    seek to it raises. *)
Theorem textblock_zero_zero_raises (w : world) (data : bytes)
    (compression : option string) :
  fst (textblock w (File (fresh data)) 0 (Some 0) compression) = Raise IOError.
Proof. reflexivity. Qed.

(** With a common positive value start = stop, the two adjusted offsets
    coincide and the block is empty. *)
Lemma textblock_equal_bounds_positive (w : world) (f : handle) (start : Z)
    (compression : option string) :
  closed f = false -> 0 < start ->
  fst (textblock w (File f) start (Some start) compression) = Ok [].
Proof.
  intros Hopen Hstart.
  assert (Hfst : fst (textblock w (File f) start (Some start) compression)
                 = fst (textblock_file start (Some start) f)).
  { unfold textblock. now destruct (textblock_file start (Some start) f). }
  rewrite Hfst, textblock_file_bounded by (done || lia). simpl.
  unfold adjusted_start. rewrite bool_decide_true by lia.
  rewrite Z.sub_diag. reflexivity.
Qed.

(** C8: on the empty stream, the request start = 0, stop = 0 lies at
    end-of-stream and textblock raises instead of returning the (empty)
    remainder. *)
Theorem textblock_empty_stream_raises (w : world) (compression : option string) :
  Z.of_nat (length (content (fresh []))) <= 0 /\
  fst (textblock w (File (fresh [])) 0 (Some 0) compression) = Raise IOError.
Proof. split; [simpl; lia|reflexivity]. Qed.

(** Every other request at or beyond end-of-stream returns the empty
    remainder. *)
Lemma textblock_beyond_end (w : world) (f : handle) (start : Z)
    (stop : option Z) (compression : option string) :
  closed f = false ->
  request_ok start stop ->
  Z.of_nat (length (content f)) <= start ->
  stop <> Some 0 ->
  fst (textblock w (File f) start stop compression) = Ok [].
Proof.
  intros Hopen [Hstart Hstop] Hbeyond Hnz.
  assert (Hfst : fst (textblock w (File f) start stop compression)
                 = fst (textblock_file start stop f)).
  { unfold textblock. now destruct (textblock_file start stop f). }
  rewrite Hfst. clear Hfst.
  assert (Ha : Z.of_nat (length (content f)) <= adjusted_start (content f) start).
  { unfold adjusted_start. case_bool_decide as Hz; [|lia].
    destruct (Z.le_gt_cases (Z.of_nat (length (content f))) (start - 1)).
    - rewrite after_line_past_end by done. done.
    - destruct (after_line_inside (content f) (start - 1)); lia. }
  destruct stop as [t|].
  - specialize (Hstop t eq_refl).
    assert (0 < t) by (destruct (Z.eq_dec t 0); [subst; done|lia]).
    rewrite textblock_file_bounded by done. simpl.
    rewrite drop_ge by lia. rewrite take_nil. now destruct (_ <? _).
  - rewrite textblock_file_to_end by done.
    now rewrite drop_ge by lia.
Qed.

(** ** Unknown codec names *)

(** C4 fails on the code: with a path and a codec name that the registry
    does not have, textblock opens the file and returns its block. *)
Lemma textblock_unknown_codec_opens :
  opens !! "bz2"%string = None /\
  fst (textblock myworld (Path "myfile.txt") 1 (Some 10) (Some "bz2"%string))
  = Ok (lit "456" ++ [newline] ++ lit "789" ++ [newline]).
Proof. split; [reflexivity|vm_compute; reflexivity]. Qed.

(** C4, as the code has it: a codec name that is not in the registry
    selects the built-in opener, so the call behaves exactly as the call
    without a codec. *)
Theorem textblock_unknown_codec_plain (w : world) (name codec : string)
    (start : Z) (stop : option Z) :
  opens !! codec = None ->
  opens_get (Some codec) = open /\
  textblock w (Path name) start stop (Some codec)
  = textblock w (Path name) start stop None.
Proof.
  intros H.
  assert (E : opens_get (Some codec) = open) by (simpl; now rewrite H).
  split; [exact E|]. unfold textblock. now rewrite E.
Qed.

Lemma textblock_unknown_codec_plain_witness :
  opens_get (Some "bz2"%string) = open /\
  textblock myworld (Path "myfile.txt") 1 (Some 10) (Some "bz2"%string)
  = textblock myworld (Path "myfile.txt") 1 (Some 10) None.
Proof. apply textblock_unknown_codec_plain. reflexivity. Defined.

(** * Properties of pseudorandom *)

(** The two calls of the docstring, run on the generator above. *)

Example pseudorandom_docstring_1 :
  pseudorandom MT19937.source (MT19937.runtime_with 77) 5 [1#2; 1#2]%Q 123
  = Ok [1; 0; 0; 1; 1].
Proof. vm_compute. reflexivity. Qed.

Example pseudorandom_docstring_2 :
  pseudorandom MT19937.source (MT19937.runtime_with 77) 10 [1#2; 1#5; 1#5; 1#10]%Q 5
  = Ok [0; 2; 0; 3; 0; 1; 2; 1; 0; 0].
Proof. vm_compute. reflexivity. Qed.

(** ** Validation *)

Lemma last_cumsum_from (acc d : Q) (p : list Q) :
  List.last (acc :: cumsum_from acc p) d = fold_left Qplus p acc.
Proof.
  revert acc. induction p as [|v p IH]; intros acc; [reflexivity|].
  change (List.last ((acc + v)%Q :: cumsum_from (acc + v)%Q p) d
          = fold_left Qplus p (acc + v)%Q).
  apply IH.
Qed.

(** [cp[-1]] is the sum of [p], added up from the left starting at 0. *)
Lemma last_cumsum (p : list Q) :
  List.last (cumsum (0%Q :: p)) 0%Q = fold_left Qplus p 0%Q.
Proof. apply last_cumsum_from. Qed.

(** What a call does once its two assertions hold. *)
Lemma pseudorandom_accepts (R : RandomSource) (np : runtime R) (n : Z)
    (p : list Q) (key : Z) :
  allclose 1 (fold_left Qplus p 0%Q) = true ->
  (length p < 256)%nat ->
  pseudorandom R np n p key
  = match random_sample R key n with
    | Raise e => Raise e
    | Ok x => Ok (fill x (cumsum (0%Q :: p)) (empty np (Z.to_nat n)))
    end.
Proof.
  intros Hsum Hlen. unfold pseudorandom.
  rewrite last_cumsum, Hsum. simpl.
  destruct (Z.ltb_spec (Z.of_nat (length p)) 256); [reflexivity|lia].
Qed.

(** C5 fails on the code: a vector with a negative entry that sums to 1
    is not rejected; the call returns a sample. *)
Lemma pseudorandom_accepts_negative :
  let p := [3 # 2; - (1 # 2)]%Q in
  (exists q, In q p /\ (q < 0)%Q) /\
  (fold_left Qplus p 0 == 1)%Q /\
  pseudorandom MT19937.source (MT19937.runtime_with 77) 3 p 0 = Ok [0; 0; 0].
Proof.
  split; [|split].
  - exists (- (1 # 2))%Q. split; [simpl; tauto|reflexivity].
  - reflexivity.
  - vm_compute. reflexivity.
Qed.

(** C5, as the code has it: the call fails on its assertions whenever the
    sum of p is not within the allclose tolerance of 1 or there are 256
    categories or more; the sign of the entries is not looked at. *)
Theorem pseudorandom_rejects (R : RandomSource) (np : runtime R) (n : Z)
    (p : list Q) (key : Z) :
  allclose 1 (fold_left Qplus p 0%Q) = false \/ (256 <= length p)%nat ->
  pseudorandom R np n p key = Raise AssertionError.
Proof.
  intros H. unfold pseudorandom. rewrite last_cumsum.
  destruct (allclose 1 (fold_left Qplus p 0%Q)); simpl; [|reflexivity].
  destruct H as [H|H]; [discriminate|].
  destruct (Z.ltb_spec (Z.of_nat (length p)) 256); [lia|reflexivity].
Qed.

Lemma pseudorandom_rejects_witness :
  pseudorandom MT19937.source (MT19937.runtime_with 77) 5 [1 # 2; 1 # 4]%Q 123
  = Raise AssertionError.
Proof. apply pseudorandom_rejects. left. reflexivity. Defined.

(** ** Cells of the int8 output *)

(** C6: with the 201 categories of [p201], which pass validation, the one
    draw of pseudorandom(1, p201, 0) falls in bucket 200 and the cell of
    the int8 output holds -56, not 200. *)
Theorem pseudorandom_index_wraps (np : runtime MT19937.source) :
  (length p201 < 256)%nat /\
  allclose 1 (fold_left Qplus p201 0%Q) = true /\
  (exists x, random_sample MT19937.source 0 1 = Ok [x] /\
             first_bucket x (buckets (cumsum (0%Q :: p201))) = Some 200%nat) /\
  pseudorandom MT19937.source np 1 p201 0 = Ok [-56].
Proof.
  split; [vm_compute; lia|]. split; [vm_compute; reflexivity|]. split.
  - eexists. split; [vm_compute; reflexivity|vm_compute; reflexivity].
  - vm_compute. reflexivity.
Qed.

(** C3: p = [0.99999] passes validation, and the one draw of
    pseudorandom(1, p, 91519) lies above 0.99999, in no bucket: the cell
    keeps what the fresh array held, so two calls in runtimes whose fresh
    memory differs return different sequences. *)
Theorem pseudorandom_leaks_fresh_memory :
  let p := [99999 # 100000]%Q in
  allclose 1 (fold_left Qplus p 0%Q) = true /\
  (forall np : runtime MT19937.source,
     pseudorandom MT19937.source np 1 p 91519 = Ok [int8 (fresh_memory np 0)]) /\
  pseudorandom MT19937.source (MT19937.runtime_with 0) 1 p 91519 = Ok [0] /\
  pseudorandom MT19937.source (MT19937.runtime_with 1) 1 p 91519 = Ok [1].
Proof.
  split; [vm_compute; reflexivity|]. split; [|split].
  - intros np. vm_compute. reflexivity.
  - vm_compute. reflexivity.
  - vm_compute. reflexivity.
Qed.

(** The global generator plays no part: two runtimes that differ only in
    its state give the same result. *)
Lemma pseudorandom_ignores_global_state (R : RandomSource) (g1 g2 : rng R)
    (memory : nat -> Z) (n : Z) (p : list Q) (key : Z) :
  pseudorandom R {| global_state := g1; fresh_memory := memory |} n p key
  = pseudorandom R {| global_state := g2; fresh_memory := memory |} n p key.
Proof. reflexivity. Qed.

(** ** Buckets of a cumulative sum *)









(** ** The loop, cell by cell *)

Lemma zip_with_keep (x : list Q) (out : list Z) :
  length out = length x -> zip_with (fun (_ : Q) o => o) x out = out.
Proof.
  revert out. induction x as [|v x IH]; intros [|o out] H; simpl in *;
    try discriminate; [reflexivity|].
  f_equal. apply IH. lia.
Qed.

Lemma zip_with_twice (g h : Q -> Z -> Z) (x : list Q) (out : list Z) :
  zip_with g x (zip_with h x out) = zip_with (fun v o => g v (h v o)) x out.
Proof.
  revert out. induction x as [|v x IH]; intros [|o out]; simpl; try reflexivity.
  f_equal. apply IH.
Qed.

Lemma assign_mask (x : list Q) (out : list Z) (low high : Q) (i : Z) :
  assign out (mask x low high) i
  = zip_with (fun v o => if in_bucket v (low, high) then int8 i else o) x out.
Proof.
  unfold assign, mask. revert out.
  induction x as [|v x IH]; intros [|o out]; simpl; try reflexivity.
  f_equal. apply IH.
Qed.

(** The array after the loop holds, for each draw, what the iterations
    leave in its cell. *)
Lemma fill_cells (x : list Q) (ibs : list (nat * (Q * Q))) (out : list Z) :
  length out = length x ->
  fold_left (fun out '(i, (low, high)) => assign out (mask x low high) (Z.of_nat i))
            ibs out
  = zip_with (fun v o => cell v ibs o) x out.
Proof.
  revert out. induction ibs as [|[i [low high]] ibs IH]; intros out Hlen.
  - simpl. unfold cell. simpl. now rewrite zip_with_keep.
  - simpl. rewrite IH.
    + rewrite assign_mask, zip_with_twice. reflexivity.
    + rewrite assign_mask, length_zip_with. lia.
Qed.

Lemma draws_length (R : RandomSource) (n : nat) (st : rng R) :
  length (draws R n st) = n.
Proof.
  revert st. induction n as [|n IH]; intros st; simpl; [reflexivity|].
  destruct (rng_double R st) as [v st']. simpl. now rewrite IH.
Qed.

Lemma random_sample_length (R : RandomSource) (key n : Z) (x : list Q) :
  random_sample R key n = Ok x -> length x = Z.to_nat n.
Proof.
  unfold random_sample. destruct (rng_seed R key) as [st|e]; [|discriminate].
  destruct (n <? 0); [discriminate|]. intros [= <-]. apply draws_length.
Qed.

Lemma empty_length {R} (np : runtime R) (n : nat) : length (empty np n) = n.
Proof. unfold empty. now rewrite length_map, length_seq. Qed.



(** ** Exact, non-negative distributions *)



(** * Further properties of textblock *)

(** ** Blocks as slices *)

Lemma textblock_file_slice (f : handle) (start t : Z) :
  closed f = false -> 0 <= start <= t -> 0 < t ->
  fst (textblock_file start (Some t) f)
  = Ok (slice (content f) (adjusted_start (content f) start)
              (after_line (content f) (t - 1))).
Proof.
  intros Hopen Hst Ht.
  rewrite textblock_file_bounded by (done || lia). simpl.
  pose proof (adjusted_bounds_ordered (content f) start t Hst Ht).
  destruct (Z.ltb_spec (after_line (content f) (t - 1)
                        - adjusted_start (content f) start) 0); [lia|].
  reflexivity.
Qed.

Lemma textblock_file_fst (w : world) (f : handle) (start : Z) (stop : option Z)
    (compression : option string) :
  fst (textblock w (File f) start stop compression)
  = fst (textblock_file start stop f).
Proof. unfold textblock. now destruct (textblock_file start stop f). Qed.

Lemma take_add_split {A} (n m : nat) (l : list A) :
  take (n + m) l = take n l ++ take m (drop n l).
Proof.
  revert l. induction n as [|n IH]; intros [|a l]; simpl;
    try reflexivity; [now rewrite take_nil|]. now rewrite IH.
Qed.

Lemma slice_app (s : bytes) (a c d : Z) :
  0 <= a <= c -> c <= d -> slice s a c ++ slice s c d = slice s a d.
Proof.
  intros Hac Hcd. unfold slice.
  replace (Z.to_nat (d - a)) with (Z.to_nat (c - a) + Z.to_nat (d - c))%nat by lia.
  rewrite take_add_split, drop_drop.
  replace (Z.to_nat a + Z.to_nat (c - a))%nat with (Z.to_nat c) by lia.
  reflexivity.
Qed.

Lemma slice_app_drop (s : bytes) (a c : Z) :
  0 <= a <= c -> slice s a c ++ drop (Z.to_nat c) s = drop (Z.to_nat a) s.
Proof.
  intros Hac. unfold slice.
  rewrite <- (take_drop (Z.to_nat (c - a)) (drop (Z.to_nat a) s)) at 2.
  rewrite drop_drop.
  replace (Z.to_nat a + Z.to_nat (c - a))%nat with (Z.to_nat c) by lia.
  reflexivity.
Qed.

Lemma adjusted_start_positive (s : bytes) (t : Z) :
  0 < t -> adjusted_start s t = after_line s (t - 1).
Proof. intros H. unfold adjusted_start. now rewrite bool_decide_true by lia. Qed.

(** ** Adjacent requests tile the stream *)

(** Two requests that share a cut point return blocks that join without
    gap or overlap: the block of start..cut followed by the block of
    cut..stop is the block of start..stop. *)
Theorem textblock_adjacent_blocks (w : world) (f g : handle) (start cut : Z)
    (stop : option Z) (compression : option string) :
  closed f = false ->
  content g = content f -> closed g = false ->
  0 <= start <= cut -> 0 < cut ->
  (forall t, stop = Some t -> cut <= t) ->
  exists left right,
    fst (textblock w (File f) start (Some cut) compression) = Ok left /\
    fst (textblock w (File g) cut stop compression) = Ok right /\
    fst (textblock w (File f) start stop compression) = Ok (left ++ right).
Proof.
  intros Hopen Hg Hgopen Hsc Hcut Hstop.
  rewrite !textblock_file_fst.
  rewrite textblock_file_slice by (done || lia).
  pose proof (adjusted_start_nonneg (content f) start ltac:(lia)) as Ha.
  pose proof (adjusted_bounds_ordered (content f) start cut Hsc Hcut) as Hab.
  destruct stop as [t|].
  - specialize (Hstop t eq_refl).
    rewrite !textblock_file_slice by (done || lia).
    rewrite Hg, (adjusted_start_positive _ cut) by done.
    do 2 eexists. repeat split.
    f_equal. symmetry. apply slice_app; [lia|].
    apply after_line_mono. lia.
  - rewrite !textblock_file_to_end by (done || lia).
    rewrite Hg, (adjusted_start_positive _ cut) by done.
    do 2 eexists. repeat split.
    f_equal. symmetry. apply slice_app_drop. lia.
Qed.

Lemma textblock_adjacent_blocks_witness :
  exists left right,
    fst (textblock myworld (File (fresh myfile)) 1 (Some 6) None) = Ok left /\
    fst (textblock myworld (File (fresh myfile)) 6 (Some 10) None) = Ok right /\
    fst (textblock myworld (File (fresh myfile)) 1 (Some 10) None) = Ok (left ++ right).
Proof.
  apply textblock_adjacent_blocks; try reflexivity; try lia.
  intros t [= <-]. lia.
Defined.

Lemma read_blocks_from (w : world) (cuts : list Z) (f : handle) (start : Z) :
  closed f = false -> 0 <= start ->
  ascending start cuts -> Forall (fun cut => 0 < cut) cuts ->
  exists blocks,
    read_blocks w (File f) start cuts = map Ok blocks /\
    length blocks = S (length cuts) /\
    concat blocks
    = drop (Z.to_nat (adjusted_start (content f) start)) (content f).
Proof.
  revert f start. induction cuts as [|cut cuts IH];
    intros f start Hopen Hstart Hasc Hpos.
  - cbn [read_blocks]. rewrite textblock_file_fst, textblock_file_to_end by done.
    eexists [_]. simpl. rewrite app_nil_r. done.
  - destruct Hasc as [Hsc Hasc]. inversion Hpos as [|? ? Hcut Hpos']. subst.
    destruct (textblock_file_moves_only start (Some cut) f) as [q Hq].
    pose proof (textblock_file_slice f start cut Hopen ltac:(lia) Hcut) as Hfst.
    simpl. destruct (textblock_file start (Some cut) f) as [r f'] eqn:E.
    simpl in *. subst r f'.
    destruct (IH (set_pos f q) cut Hopen ltac:(lia) Hasc Hpos')
      as (blocks & Hblocks & Hlen & Hcat).
    eexists (_ :: blocks). simpl. rewrite Hblocks, Hlen, Hcat. simpl.
    repeat split.
    rewrite (adjusted_start_positive _ cut) by done.
    apply slice_app_drop.
    pose proof (adjusted_start_nonneg (content f) start Hstart).
    pose proof (adjusted_bounds_ordered (content f) start cut ltac:(lia) Hcut).
    lia.
Qed.

(** Reading a file block by block, from byte 0 through any ascending
    list of positive cut points to the end, on one handle used for every
    call: each call returns a block, and the blocks put end to end are
    the file, every byte once. *)
Theorem read_blocks_whole_file (w : world) (f : handle) (cuts : list Z) :
  closed f = false ->
  ascending 0 cuts -> Forall (fun cut => 0 < cut) cuts ->
  exists blocks,
    read_blocks w (File f) 0 cuts = map Ok blocks /\
    length blocks = S (length cuts) /\
    concat blocks = content f.
Proof.
  intros Hopen Hasc Hpos.
  destruct (read_blocks_from w cuts f 0 Hopen ltac:(lia) Hasc Hpos)
    as (blocks & H1 & H2 & H3).
  exists blocks. repeat split; assumption.
Qed.

Lemma read_blocks_whole_file_witness :
  exists blocks,
    read_blocks myworld (File (fresh myfile)) 0 [2; 5; 6; 40] = map Ok blocks /\
    length blocks = 5%nat /\
    concat blocks = myfile.
Proof.
  apply (read_blocks_whole_file myworld (fresh myfile) [2; 5; 6; 40]).
  - reflexivity.
  - simpl. lia.
  - repeat constructor.
Defined.

(** ** Which lines a block holds *)

Lemma take_line_inner (l : bytes) (n : nat) :
  (S n < length (take_line l))%nat -> l !! n <> Some newline.
Proof.
  revert n. induction l as [|c l IH]; intros n; simpl; [lia|].
  destruct (is_newline c) eqn:Hc; simpl; [lia|].
  destruct n as [|n]; simpl.
  - intros _ [= ->]. discriminate.
  - intros H. apply IH. lia.
Qed.

(** A line read ends on the first newline it meets: the adjusted offset
    is at most any later offset that follows a newline. *)
Lemma after_line_least (s : bytes) (p q : Z) :
  0 <= p < q -> s !! Z.to_nat (q - 1) = Some newline -> after_line s p <= q.
Proof.
  intros Hpq Hnl.
  destruct (Z.le_gt_cases (after_line s p) q) as [|Hgt]; [done|exfalso].
  unfold after_line in Hgt.
  apply (take_line_inner (drop (Z.to_nat p) s) (Z.to_nat (q - 1 - p))); [lia|].
  rewrite lookup_drop.
  replace (Z.to_nat p + Z.to_nat (q - 1 - p))%nat with (Z.to_nat (q - 1)) by lia.
  exact Hnl.
Qed.

(** For a line that starts at offset [q] inside the stream, the adjusted
    offset of a request offset is at or before [q] exactly when the
    request offset is. *)
Lemma adjusted_start_line (s : bytes) (start q : Z) :
  0 <= start -> line_start s q -> q < Z.of_nat (length s) ->
  adjusted_start s start <= q <-> start <= q.
Proof.
  intros Hstart Hq HqL. unfold adjusted_start. case_bool_decide as Hz; [|done].
  split.
  - intros Hle.
    destruct (Z.le_gt_cases (Z.of_nat (length s)) (start - 1)) as [Hout|Hin].
    + rewrite after_line_past_end in Hle by done. lia.
    + destruct (after_line_inside s (start - 1)) as [Hlt _]; lia.
  - intros Hle. destruct Hq as [->|[Hpos Hnl]]; [lia|].
    apply after_line_least; [lia|done].
Qed.



(** The same for a request to the end of the stream: the block holds the
    lines that start at or after start, and runs to the last byte. *)
Theorem textblock_lines_to_end (w : world) (f : handle) (start : Z)
    (compression : option string) :
  closed f = false -> 0 <= start ->
  exists a,
    fst (textblock w (File f) start None compression)
      = Ok (drop (Z.to_nat a) (content f)) /\
    0 <= a /\
    forall q, line_start (content f) q -> q < Z.of_nat (length (content f)) ->
              (a <= q <-> start <= q).
Proof.
  intros Hopen Hstart.
  exists (adjusted_start (content f) start).
  rewrite textblock_file_fst, textblock_file_to_end by done.
  split; [reflexivity|]. split; [now apply adjusted_start_nonneg|].
  intros q Hq HqL. now apply adjusted_start_line.
Qed.

Lemma textblock_lines_to_end_witness :
  exists a,
    fst (textblock myworld (File (fresh myfile)) 5 None None)
      = Ok (drop (Z.to_nat a) myfile) /\
    0 <= a /\
    forall q, line_start myfile q -> q < 15 -> (a <= q <-> 5 <= q).
Proof.
  apply (textblock_lines_to_end myworld (fresh myfile) 5 None); [reflexivity|lia].
Defined.

(** ** A stop before the start *)



(** * Further properties of pseudorandom *)

(** ** The loop in general: the last matching bucket wins *)

Lemma cell_last_bucket (v : Q) (bs : list (Q * Q)) (k : nat) (o : Z) :
  cell v (zip (seq k (length bs)) bs) o
  = match last_bucket v bs with
    | Some i => int8 (Z.of_nat (k + i))
    | None => o
    end.
Proof.
  revert k o. induction bs as [|bucket bs IH]; intros k o; [reflexivity|].
  unfold cell in *. simpl. rewrite IH.
  destruct (last_bucket v bs) as [i|].
  - f_equal. lia.
  - destruct (in_bucket v bucket); [f_equal; lia|reflexivity].
Qed.


Lemma empty_lookup {R} (np : runtime R) (n j : nat) :
  (j < n)%nat -> empty np n !! j = Some (int8 (fresh_memory np j)).
Proof.
  intros H. unfold empty.
  rewrite list_lookup_fmap, lookup_seq_lt by done. reflexivity.
Qed.

Lemma pseudorandom_cell_by_cell (R : RandomSource) (np : runtime R) (n : Z)
    (p : list Q) (key : Z) (x : list Q) :
  allclose 1 (fold_left Qplus p 0%Q) = true ->
  (length p < 256)%nat ->
  random_sample R key n = Ok x ->
  exists out : list Z,
    pseudorandom R np n p key = Ok out /\
    Z.of_nat (length out) = n /\
    forall j v, x !! j = Some v ->
      out !! j
      = Some match last_bucket v (buckets (cumsum (0%Q :: p))) with
             | Some i => int8 (Z.of_nat i)
             | None => int8 (fresh_memory np j)
             end.
Proof.
  intros Hsum Hk Hx.
  pose proof (random_sample_length R key n x Hx) as Hlen.
  assert (Hn : 0 <= n).
  { unfold random_sample in Hx. destruct (rng_seed R key); [|discriminate].
    destruct (Z.ltb_spec n 0); [discriminate|lia]. }
  rewrite pseudorandom_accepts, Hx by done.
  eexists. split; [reflexivity|].
  unfold fill. rewrite fill_cells by (rewrite empty_length; lia).
  split.
  - rewrite length_zip_with, empty_length. lia.
  - intros j v Hj.
    assert (Hjlt : (j < length x)%nat) by (eapply lookup_lt_Some; eassumption).
    rewrite lookup_zip_with, Hj, empty_lookup by lia. simpl.
    unfold enumerate. rewrite cell_last_bucket. reflexivity.
Qed.

(** Whenever the two assertions hold and the generator delivers, the call
    returns one cell per draw: the index of the last bucket that contains
    the draw, as an int8, or what the fresh array held there if no bucket
    contains it. *)
Theorem pseudorandom_cells (R : RandomSource) (np : runtime R) (n : Z)
    (p : list Q) (key : Z) (x : list Q) :
  allclose 1 (fold_left Qplus p 0%Q) = true ->
  (length p < 256)%nat ->
  random_sample R key n = Ok x ->
  exists out : list Z,
    pseudorandom R np n p key = Ok out /\
    Z.of_nat (length out) = n /\
    forall j v, x !! j = Some v ->
      out !! j
      = Some match last_bucket v (buckets (cumsum (0%Q :: p))) with
             | Some i => int8 (Z.of_nat i)
             | None => int8 (fresh_memory np j)
             end.
Proof. apply pseudorandom_cell_by_cell. Qed.

Lemma pseudorandom_cells_witness :
  exists out : list Z,
    pseudorandom MT19937.source (MT19937.runtime_with 77) 3
                 [4 # 5; - (3 # 10); 1 # 2]%Q 123 = Ok out /\
    Z.of_nat (length out) = 3.
Proof.
  destruct (pseudorandom_cells MT19937.source (MT19937.runtime_with 77) 3
              [4 # 5; - (3 # 10); 1 # 2]%Q 123
              (draws MT19937.source 3 (MT19937.rk_seed 123)))
    as (out & Hout & Hlen & _).
  - vm_compute. reflexivity.
  - simpl. lia.
  - vm_compute. reflexivity.
  - exists out. split; assumption.
Defined.

(** ** When no cell is left unwritten *)




(** ** The Mersenne Twister delivers draws in [0, 1) *)

Module MT19937Facts.
Import MT19937.
















End MT19937Facts.

(** ** Indices stay within the categories *)




(** * Properties of deepmap and concrete *)

Module NestedFacts.
Import Nested.

(** The two calls of the docstring of deepmap. *)
Example deepmap_docstring_inc :
  deepmap_call (on_scalars (fun zs => foldr Z.add 1 zs))
    [PList [PList [Atom 1; Atom 2]; PList [Atom 3; Atom 4]]]
  = Done (PList [PList [Atom 2; Atom 3]; PList [Atom 4; Atom 5]]).
Proof. reflexivity. Qed.

Example deepmap_docstring_add :
  deepmap_call (on_scalars (fun zs => foldr Z.add 0 zs))
    [PList [PList [Atom 1; Atom 2]; PList [Atom 3; Atom 4]];
     PList [PList [Atom 10; Atom 20]; PList [Atom 30; Atom 40]]]
  = Done (PList [PList [Atom 11; Atom 22]; PList [Atom 33; Atom 44]]).
Proof. reflexivity. Qed.

(** The docstring of concrete: an iterator of iterators. *)
Example concrete_docstring :
  concrete (PIter [PIter [Atom 1; Atom 2]; PIter [Atom 3; Atom 4]])
  = PList [PList [Atom 1; Atom 2]; PList [Atom 3; Atom 4]].
Proof. reflexivity. Qed.

Lemma deepmap_list (func : list pyval -> outcome pyval) (items : list pyval)
    (results : list pyval) :
  Forall2 (fun item r => deepmap func item [] = Done r) items results ->
  deepmap func (PList items) [] = Done (PList results).
Proof.
  intros H. simpl. unfold zipped. simpl.
  assert (E : map_rows (deepmap func) items [] = Done results).
  { induction H as [|item r items results Hr _ IH]; [reflexivity|].
    simpl. now rewrite Hr, IH. }
  now rewrite E.
Qed.

(** With one sequence of nested lists of scalars, deepmap is the map over
    the scalars that keeps the nesting. *)
Theorem deepmap_one_sequence (g : list Z -> Z) (v : pyval) :
  only_lists v = true ->
  deepmap_call (on_scalars g) [v] = Done (map_leaves (fun z => g [z]) v).
Proof.
  unfold deepmap_call.
  induction v as [z|items IH|items _|items _] using pyval_nested_ind;
    intros Hv; try discriminate; [reflexivity|].
  apply deepmap_list.
  simpl in Hv. rewrite forallb_forall in Hv.
  induction IH as [|item items Hitem _ IHitems]; simpl; constructor.
  - apply Hitem, Hv. now left.
  - apply IHitems. intros x Hx. apply Hv. now right.
Qed.

Lemma deepmap_one_sequence_witness :
  deepmap_call (on_scalars (fun zs => foldr Z.add 1 zs))
    [PList [PList [Atom 1; Atom 2]; PList []; Atom 7]]
  = Done (PList [PList [Atom 2; Atom 3]; PList []; Atom 8]).
Proof. apply (deepmap_one_sequence (fun zs => foldr Z.add 1 zs)). reflexivity. Defined.




Lemma map_rows_length (call : pyval -> list pyval -> outcome pyval)
    (l1 l2 rs : list pyval) :
  map_rows call l1 [l2] = Done rs -> length rs = Nat.min (length l1) (length l2).
Proof.
  revert l2 rs. induction l1 as [|a l1 IH]; intros [|c l2] rs; simpl;
    try (intros [= <-]; reflexivity).
  destruct (call a [c]); [|discriminate].
  destruct (map_rows call l1 [l2]) as [rs'|] eqn:E; [|discriminate].
  intros [= <-]. simpl. f_equal. now apply IH.
Qed.

(** Whatever the function, mapping over two lists of different lengths
    stops with the shorter one: the surplus items are dropped without an
    error, and the function is never applied to them. *)
Theorem deepmap_truncates (func : list pyval -> outcome pyval)
    (l1 l2 : list pyval) (r : pyval) :
  deepmap_call func [PList l1; PList l2] = Done r ->
  exists rs, r = PList rs /\ length rs = Nat.min (length l1) (length l2) /\
    deepmap_call func [PList (take (length l2) l1); PList (take (length l1) l2)]
    = Done r.
Proof.
  unfold deepmap_call. simpl. unfold zipped. simpl.
  destruct (map_rows (deepmap func) l1 [l2]) as [rs|] eqn:E; [|discriminate].
  intros [= <-]. exists rs. split; [reflexivity|].
  split; [now apply map_rows_length in E|].
  assert (E' : map_rows (deepmap func) (take (length l2) l1) [take (length l1) l2]
               = Done rs); [|now rewrite E'].
  clear -E. revert l2 rs E.
  induction l1 as [|a l1 IH]; intros [|c l2] rs; simpl; try done.
  destruct (deepmap func a [c]); [|discriminate].
  destruct (map_rows (deepmap func) l1 [l2]) as [rs'|] eqn:E; [|discriminate].
  intros [= <-]. now rewrite (IH l2 rs').
Qed.

Lemma deepmap_truncates_witness :
  exists rs,
    PList [Atom 11; Atom 22] = PList rs /\
    length rs = Nat.min 3 2 /\
    deepmap_call (on_scalars (fun zs => foldr Z.add 0 zs))
      [PList (take 2 [Atom 1; Atom 2; Atom 3]); PList (take 3 [Atom 10; Atom 20])]
    = Done (PList [Atom 11; Atom 22]).
Proof.
  apply (deepmap_truncates (on_scalars (fun zs => foldr Z.add 0 zs))
           [Atom 1; Atom 2; Atom 3] [Atom 10; Atom 20]).
  reflexivity.
Defined.

(** What concrete returns holds lists and scalars only, with the scalars
    of the argument in their order; applying concrete again changes
    nothing. *)
Theorem concrete_idempotent (v : pyval) :
  only_lists (concrete v) = true /\
  leaves (concrete v) = leaves v /\
  concrete (concrete v) = concrete v.
Proof.
  assert (Hall : forall items,
            Forall (fun v => only_lists (concrete v) = true /\
                             leaves (concrete v) = leaves v /\
                             concrete (concrete v) = concrete v) items ->
            forallb only_lists (map concrete items) = true /\
            flat_map leaves (map concrete items) = flat_map leaves items /\
            map concrete (map concrete items) = map concrete items).
  { induction 1 as [|item items (H1 & H2 & H3) _ (IH1 & IH2 & IH3)]; [done|].
    simpl. rewrite H1, H2, H3, IH1, IH2, IH3. done. }
  induction v as [z|items IH|items IH|items IH] using pyval_nested_ind;
    [done|..]; destruct (Hall items IH) as (H1 & H2 & H3);
    simpl; rewrite H1, H2, H3; done.
Qed.

End NestedFacts.

(** * Properties of the temporary-file managers *)

Module TempFilesFacts.
Import TempFiles.

Lemma files_set_files (w : world) (fs : gmap string bytes) :
  files (set_files w fs) = fs.
Proof. reflexivity. Qed.

Lemma set_files_twice (w : world) (fs fs' : gmap string bytes) :
  set_files (set_files w fs) fs' = set_files w fs'.
Proof. reflexivity. Qed.

Lemma set_files_same (w : world) : set_files w (files w) = w.
Proof. now destruct w. Qed.

(** The clean-up of tmpfile: afterwards the path is free. *)
Lemma cleanup_deletes (w : world) (filename : string) :
  (if path_exists w filename
   then if isdir w filename then rmtree w filename else remove w filename
   else w)
  = set_files w (delete filename (files w)).
Proof.
  unfold path_exists, isdir, remove. case_bool_decide as H; [reflexivity|].
  rewrite delete_id; [now rewrite set_files_same|].
  destruct (files w !! filename) eqn:E; [|reflexivity].
  exfalso. apply H. now exists l.
Qed.

Lemma tmpfile_unfold (mkstemp : world -> string -> string) {A}
    (extension : string) (body : string -> world -> result A * world) (w : world) :
  let filename := mkstemp w (String "."%char (lstrip "."%char extension)) in
  let inside := body filename (set_files w (delete filename (files w))) in
  tmpfile mkstemp extension body w
  = (fst inside, set_files (snd inside) (delete filename (files (snd inside)))).
Proof.
  intros filename inside. unfold tmpfile. fold filename.
  unfold remove at 1. rewrite files_set_files, set_files_twice, delete_insert_eq.
  fold inside. destruct inside as [r w']. simpl.
  now rewrite cleanup_deletes.
Qed.


Lemma lstrip_dot (s : string) :
  lstrip "."%char (String "."%char s) = lstrip "."%char s.
Proof. reflexivity. Qed.

Lemma lstrip_no_dot (s : string) :
  forall rest, lstrip "."%char s <> String "."%char rest.
Proof.
  induction s as [|a s IH]; intros rest; simpl; [discriminate|].
  destruct (Ascii.eqb a ".") eqn:E; [apply IH|].
  intros [= -> _]. now rewrite Ascii.eqb_refl in E.
Qed.

(** The suffix handed to mkstemp starts with exactly one dot, however
    many dots the extension starts with; an extension with a leading dot
    and the same extension without it name the same kind of file. *)
Theorem tmpfile_extension_dots (mkstemp : world -> string -> string) {A}
    (extension : string) (body : string -> world -> result A * world) (w : world) :
  tmpfile mkstemp (String "."%char extension) body w
    = tmpfile mkstemp extension body w /\
  forall rest, lstrip "."%char extension <> String "."%char rest.
Proof. split; [reflexivity|apply lstrip_no_dot]. Qed.

Lemma textblock_path_plain (w : world) (filename : string) (text : bytes)
    (start : Z) (stop : option Z) :
  files w !! filename = Some text ->
  fst (textblock w (Path filename) start stop None)
  = fst (textblock_file start stop (fresh text)).
Proof.
  intros H. unfold textblock, opens_get, open. rewrite H.
  now destruct (textblock_file start stop (fresh text)).
Qed.

(** Reading a block of the file that filetext wrote gives the block of
    the text itself, and afterwards the temporary file is gone. *)
Theorem filetext_read_block (mkstemp : world -> string -> string)
    (text : bytes) (extension : string) (start : Z) (stop : option Z) (w : world) :
  let filename := mkstemp w (String "."%char (lstrip "."%char extension)) in
  let after := filetext mkstemp text extension open_write
                 (read_block start stop None) w in
  fst after = fst (textblock w (File (fresh text)) start stop None) /\
  files (snd after) = delete filename (files w).
Proof.
  intros filename after. subst after. unfold filetext.
  rewrite tmpfile_unfold. fold filename. unfold open_write, read_block.
  cbn [fst snd]. rewrite !files_set_files, !set_files_twice.
  rewrite (textblock_path_plain _ filename text)
    by (rewrite files_set_files; apply lookup_insert_eq).
  rewrite textblock_file_fst.
  split; [reflexivity|].
  now rewrite delete_insert_eq, delete_delete_eq.
Qed.




(** ** filetexts *)

Lemma write_all_open_write (items : list (string * bytes)) (w : world) :
  NoDup items.*1 ->
  write_all open_write items w
  = (Ok tt, set_files w (list_to_map items ∪ files w)).
Proof.
  revert w. induction items as [|[filename text] items IH]; intros w Hnd.
  - simpl. now rewrite (left_id_L ∅ (∪)), set_files_same.
  - apply NoDup_cons in Hnd as [Hnotin Hnd].
    simpl. rewrite IH by done. rewrite set_files_twice, files_set_files.
    do 2 f_equal.
    rewrite <- insert_union_r by now apply not_elem_of_list_to_map_1.
    now rewrite insert_union_l.
Qed.

Lemma remove_all_lookup (names : list string) (w : world) (name : string) :
  files (remove_all names w) !! name
  = if decide (name ∈ names) then None else files w !! name.
Proof.
  revert w. induction names as [|n names IH]; intros w.
  - destruct (decide (name ∈ [])) as [H|_]; [|reflexivity].
    now apply elem_of_nil in H.
  - assert (E : (if path_exists w n then remove w n else w)
                = set_files w (delete n (files w))).
    { pose proof (cleanup_deletes w n) as H. unfold isdir in H. exact H. }
    cbn [remove_all]. rewrite E, IH, files_set_files.
    destruct (decide (name ∈ names)) as [Hin|Hnin];
      destruct (decide (name ∈ n :: names)) as [Hin'|Hnin'].
    + reflexivity.
    + exfalso. apply Hnin'. apply elem_of_cons. now right.
    + apply elem_of_cons in Hin' as [->|?]; [|contradiction].
      apply lookup_delete_eq.
    + apply lookup_delete_ne. intros ->. apply Hnin'.
      apply elem_of_cons. now left.
Qed.

Lemma filetexts_unfold {A} (d : gmap string bytes)
    (body : list string -> world -> result A * world) (w : world) :
  filetexts d open_write body w
  = match body (map_to_list d).*1 (set_files w (d ∪ files w)) with
    | (Ok a, w2) => (Ok a, remove_all (map_to_list d).*1 w2)
    | (Raise e, w2) => (Raise e, w2)
    end.
Proof.
  unfold filetexts.
  rewrite write_all_open_write by apply NoDup_fst_map_to_list.
  now rewrite list_to_map_to_list.
Qed.

(** Inside filetexts every file of the dict reads back whole: the text
    stored under a name is what textblock returns for that path from
    byte 0 to the end. *)
Theorem filetexts_round_trip (d : gmap string bytes) (name : string)
    (text : bytes) (w : world) :
  d !! name = Some text ->
  fst (filetexts d open_write (fun _ => read_block 0 None None name) w)
  = Ok text.
Proof.
  intros Hd. rewrite filetexts_unfold. unfold read_block.
  assert (E : fst (textblock (set_files w (d ∪ files w)) (Path name) 0 None None)
              = Ok text).
  { rewrite (textblock_path_plain _ name text)
      by (rewrite files_set_files; now apply lookup_union_Some_l).
    now rewrite textblock_file_to_end. }
  destruct (fst (textblock _ (Path name) 0 None None)) eqn:E'; simpl;
    congruence.
Qed.

Lemma filetexts_round_trip_witness :
  fst (filetexts {[ "a.csv"%string := lit "1,1" ]} open_write
         (fun _ => read_block 0 None None "a.csv") myworld)
  = Ok (lit "1,1").
Proof. apply filetexts_round_trip. reflexivity. Defined.

(** After a body that returns, no file is left under any name of the
    dict, whether or not one existed before the call, and every other
    path is as the body left it.  After a body that raises, nothing has
    been removed: the world is exactly as the body left it. *)
Theorem filetexts_cleanup {A} (d : gmap string bytes)
    (body : list string -> world -> result A * world) (w : world) :
  let inside := body (map_to_list d).*1 (set_files w (d ∪ files w)) in
  let after := filetexts d open_write body w in
  fst after = fst inside /\
  match fst inside with
  | Ok _ =>
      forall name,
        files (snd after) !! name
        = if decide (is_Some (d !! name)) then None
          else files (snd inside) !! name
  | Raise _ => snd after = snd inside
  end.
Proof.
  intros inside after. subst after. rewrite filetexts_unfold. fold inside.
  destruct inside as [[a|e] w2]; simpl; split; try reflexivity.
  intros name. rewrite remove_all_lookup.
  destruct (decide (name ∈ (map_to_list d).*1)) as [Hin|Hnin];
    destruct (decide (is_Some (d !! name))) as [Hd|Hd]; try reflexivity.
  - exfalso. apply Hd. apply list_elem_of_fmap in Hin as ([k t] & -> & Hkt).
    apply elem_of_map_to_list in Hkt. now exists t.
  - exfalso. apply Hnin. destruct Hd as [t Ht].
    apply list_elem_of_fmap. exists (name, t). split; [reflexivity|].
    now apply elem_of_map_to_list.
Qed.

End TempFilesFacts.

(** * Properties of repr_long_list *)

Module ReprFacts.
Import Repr.

(** The docstring: the hundred numbers from 0. *)
Example repr_long_list_docstring :
  repr_long_list (pretty : nat -> string) (seq 0 100) = "[0, 1, 2, ..., 98, 99]"%string.
Proof. vm_compute. reflexivity. Qed.

Lemma drop_last_app (s : string) : drop_last (s +:+ "]") = s.
Proof.
  induction s as [|a s IH]; [reflexivity|].
  simpl. rewrite IH. destruct s; reflexivity.
Qed.

Lemma append_assoc (s1 s2 s3 : string) :
  ((s1 +:+ s2) +:+ s3 = s1 +:+ s2 +:+ s3)%string.
Proof.
  induction s1 as [|a s1 IH]; [reflexivity|].
  change (String a ((s1 +:+ s2) +:+ s3) = String a (s1 +:+ s2 +:+ s3)).
  now rewrite IH.
Qed.

Lemma drop_last_bracket (j : string) :
  drop_last ("[" +:+ j +:+ "]") = ("[" +:+ j)%string.
Proof.
  change ("[" +:+ j +:+ "]")%string with (("[" +:+ j) +:+ "]")%string.
  apply drop_last_app.
Qed.

(** A list of eight items or more is shown by its first three and its
    last two items, with an ellipsis for everything in between. *)
Theorem repr_long_list_abbreviates {A} (repr : A -> string) (l : list A) :
  (8 <= length l)%nat ->
  exists a1 a2 a3 middle y z,
    l = [a1; a2; a3] ++ middle ++ [y; z] /\
    repr_long_list repr l
    = ("[" +:+ repr a1 +:+ ", " +:+ repr a2 +:+ ", " +:+ repr a3
       +:+ ", ..., " +:+ repr y +:+ ", " +:+ repr z +:+ "]")%string.
Proof.
  intros Hlen.
  destruct l as [|a1 [|a2 [|a3 rest]]]; simpl in Hlen; try lia.
  assert (Hrest : (2 <= length rest)%nat) by lia.
  destruct (drop (length rest - 2) rest) as [|y [|z [|? ?]]] eqn:Hd;
    try (apply (f_equal length) in Hd; rewrite length_drop in Hd;
         simpl in Hd; lia).
  exists a1, a2, a3, (take (length rest - 2) rest), y, z.
  split.
  - simpl. now rewrite <- Hd, take_drop.
  - unfold repr_long_list.
    destruct (Nat.ltb_spec (length (a1 :: a2 :: a3 :: rest)) 8) as [H|_];
      [simpl in H; lia|].
    replace (drop (length (a1 :: a2 :: a3 :: rest) - 2) (a1 :: a2 :: a3 :: rest))
      with [y; z].
    + unfold repr_list.
      change (take 3 (a1 :: a2 :: a3 :: rest)) with [a1; a2; a3].
      rewrite drop_last_bracket. simpl.
      rewrite !append_assoc. reflexivity.
    + rewrite <- Hd.
      replace (length (a1 :: a2 :: a3 :: rest) - 2)%nat
        with (3 + (length rest - 2))%nat by (simpl; lia).
      reflexivity.
Qed.

Lemma repr_long_list_abbreviates_witness :
  exists a1 a2 a3 middle y z,
    seq 0 100 = [a1; a2; a3] ++ middle ++ [y; z] /\
    repr_long_list (pretty : nat -> string) (seq 0 100)
    = ("[" +:+ pretty a1 +:+ ", " +:+ pretty a2 +:+ ", " +:+ pretty a3
       +:+ ", ..., " +:+ pretty y +:+ ", " +:+ pretty z +:+ "]")%string.
Proof. apply (repr_long_list_abbreviates pretty (seq 0 100)). simpl. lia. Defined.

End ReprFacts.

(** * textblock on paths that do not exist *)

(** Whatever codec is named, known to the registry or not, textblock on a
    path under which there is no file raises IOError. *)
Theorem textblock_path_missing (w : world) (filename : string) (start : Z)
    (stop : option Z) (compression : option string) :
  files w !! filename = None ->
  fst (textblock w (Path filename) start stop compression) = Raise IOError.
Proof.
  intros H. unfold textblock.
  assert (E : opens_get compression w filename = Raise IOError).
  { destruct compression as [codec|]; simpl; [|unfold open; now rewrite H].
    unfold opens. destruct (decide (codec = "gzip"%string)) as [->|Hne].
    - rewrite lookup_singleton_eq. simpl. unfold gzip_open. now rewrite H.
    - rewrite lookup_singleton_ne by done. simpl. unfold open. now rewrite H. }
  now rewrite E.
Qed.

Lemma textblock_path_missing_witness :
  fst (textblock myworld (Path "nofile.txt") 0 None (Some "gzip"%string))
  = Raise IOError.
Proof. apply textblock_path_missing. reflexivity. Defined.
